(** * toy-container: the native entry point [createNamespacedProcess]

    A shallow embedding of [app/src/main/cpp/container_native.cpp] and the
    properties its specification states about it.

    The translation unit holds one function,

<<
    extern "C" JNIEXPORT jint JNICALL
    Java_com_toycontainer_Container_createNamespacedProcess(JNIEnv* env, jclass clazz) {
        int flags = CLONE_NEWUTS | CLONE_NEWPID | CLONE_NEWNS;
        return flags;
    }
>>

    and includes [<sched.h>], [<sys/wait.h>] and [<unistd.h>].  Native code is
    embedded in a small free monad over the system calls those headers declare,
    so that "the function makes no system call" is a statement about the
    embedded term and not an artefact of the modelling. *)

From Stdlib Require Import ZArith Lia Permutation.
From stdpp Require Import base numbers option list gmap strings.

Local Open Scope Z_scope.

(** ** The C type [int] (and JNI's [jint]) *)

Module Int32.

Definition int_min : Z := - 2 ^ 31.
Definition int_max : Z := 2 ^ 31 - 1.

(** The values an [int] holds. *)
Definition is_int (z : Z) : Prop := int_min <= z <= int_max.

(** Conversion of an integer to [int]: two's complement wrap-around. *)
Definition to_int (z : Z) : Z := (z + 2 ^ 31) mod 2 ^ 32 - 2 ^ 31.

(** [a | b] on [int] operands. *)
Definition int_or (a b : Z) : Z := to_int (Z.lor a b).

#[global] Instance is_int_dec z : Decision (is_int z).
Proof. unfold is_int. apply _. Defined.

End Int32.
Import Int32.

(** [jint] is a 32-bit signed integer, [JNIEnv*] a pointer and [jclass] an
    opaque object reference; pointers and references are their addresses. *)
Definition jint := Z.
Definition JNIEnv_ptr := Z.
Definition jclass := Z.

(** [return flags;] converts the [int] to the return type [jint]. *)
Definition to_jint (z : Z) : jint := to_int z.

(** ** [<sched.h>]: the namespace flags

    The header is the platform's, not the repository's: the flags are an
    interface the function is written against. *)
Class sched_h := {
  CLONE_NEWNS : Z;
  CLONE_NEWUTS : Z;
  CLONE_NEWPID : Z
}.

(** The macros expand to integer constants of type [int]. *)
Definition int_flags `{sched_h} : Prop :=
  is_int CLONE_NEWUTS /\ is_int CLONE_NEWPID /\ is_int CLONE_NEWNS.

(** ** Native code and the system calls it can make *)

(** The calls declared by the three headers the file includes. *)
Inductive Syscall :=
| SysClone (flags : Z)               (* sched.h *)
| SysUnshare (flags : Z)             (* sched.h *)
| SysSetns (fd : Z) (nstype : Z)     (* sched.h *)
| SysFork                            (* unistd.h *)
| SysSethostname (name : string)     (* unistd.h *)
| SysExecv (path : string) (argv : list string)  (* unistd.h *)
| SysWaitpid (pid : Z).              (* sys/wait.h *)

(** A native computation: it returns, or makes a call and goes on with the
    call's result. *)
Inductive Native (A : Type) : Type :=
| Return (a : A)
| Call (s : Syscall) (k : Z -> Native A).
Arguments Return {A} a.
Arguments Call {A} s k.

Fixpoint bind {A B} (m : Native A) (f : A -> Native B) : Native B :=
  match m with
  | Return a => f a
  | Call s k => Call s (fun r => bind (k r) f)
  end.

(** What the operating system does at a call, on a state of type [W]. *)
Definition Handler (W : Type) := Syscall -> W -> Z * W.

(** Running a computation: the value returned, the final state and the calls
    made, oldest first. *)
Fixpoint run {W A} (h : Handler W) (m : Native A) (w : W)
  : A * W * list Syscall :=
  match m with
  | Return a => (a, w, [])
  | Call s k =>
      let '(r, w1) := h s w in
      let '(a, w2, tr) := run h (k r) w1 in
      (a, w2, s :: tr)
  end.

Definition result {W A} (o : A * W * list Syscall) : A := o.1.1.
Definition final {W A} (o : A * W * list Syscall) : W := o.1.2.
Definition calls {W A} (o : A * W * list Syscall) : list Syscall := o.2.

(** ** The function *)

Section container_native.
Context `{sched_h}.

Definition Java_com_toycontainer_Container_createNamespacedProcess
    (env : JNIEnv_ptr) (clazz : jclass) : Native jint :=
  let flags := int_or (int_or CLONE_NEWUTS CLONE_NEWPID) CLONE_NEWNS in
  Return (to_jint flags).

End container_native.

(** The name the Java side ([com.toycontainer.Container]) calls it by. *)
Abbreviation createNamespacedProcess :=
  Java_com_toycontainer_Container_createNamespacedProcess.

(** Modelled from the spec: the values of the [CLONE_NEW*] macros, which
    [<sched.h>] defines and the repository does not: [0x00020000] for mount,
    [0x04000000] for UTS and [0x20000000] for PID namespaces, as on Linux. *)
Definition linux_sched_h : sched_h := {|
  CLONE_NEWNS := 0x00020000;
  CLONE_NEWUTS := 0x04000000;
  CLONE_NEWPID := 0x20000000
|}.

(** ** Combining namespace flags

    The kinds of namespace the function asks for, each with its flag. *)
Inductive NamespaceKind := UTS | PID | Mount.

#[global] Instance NamespaceKind_eq_dec : EqDecision NamespaceKind.
Proof. solve_decision. Defined.

Definition kind_flag `{sched_h} (k : NamespaceKind) : Z :=
  match k with
  | UTS => CLONE_NEWUTS
  | PID => CLONE_NEWPID
  | Mount => CLONE_NEWNS
  end.

(** [f1 | f2 | ... | fn], associated to the left as C reads it; the empty
    request is no flag at all. *)
Definition flags_union (fs : list Z) : Z :=
  match fs with
  | [] => 0
  | f :: fs => foldl int_or f fs
  end.

Definition request `{sched_h} (ks : list NamespaceKind) : Z :=
  flags_union (kind_flag <$> ks).

(** Bit [i] of the request, read off the kinds one by one. *)
Definition requested_bit `{sched_h} (ks : list NamespaceKind) (i : Z) : bool :=
  existsb (fun k => Z.testbit (kind_flag k) i) ks.

(** ** The operating system the calls act on

    Enough of a kernel to say what creating a process in new namespaces is:
    a process table, and per namespace the hostname and the mounts. *)
Record Namespaces := { ns_uts : nat; ns_pid : nat; ns_mnt : nat }.

(** A process: the namespaces it is in, the PID namespace its children will
    be created in (the process's own until it unshares it), and its image. *)
Record Process := {
  proc_ns : Namespaces;
  proc_pid_for_children : nat;
  proc_image : string
}.

Record World := {
  self : Z;                          (* the calling process *)
  procs : gmap Z Process;            (* the process table *)
  hostnames : gmap nat string;       (* per UTS namespace *)
  mounts : gmap nat (list string);   (* per mount namespace *)
  next_pid : Z;
  next_ns : nat
}.

(** The pieces of ambient state a caller can observe. *)
Definition caller_namespaces (w : World) : option Namespaces :=
  proc_ns <$> procs w !! self w.
Definition caller_hostname (w : World) : option string :=
  ns ← caller_namespaces w; hostnames w !! ns_uts ns.
Definition caller_mounts (w : World) : option (list string) :=
  ns ← caller_namespaces w; mounts w !! ns_mnt ns.

Section kernel.
Context `{sched_h}.

Definition has_flag (flags f : Z) : bool := negb (Z.land flags f =? 0).

(** The namespaces of a process made with [flags] by a parent in [ns] whose
    children go to the PID namespace [pid_ns]: a fresh one for every kind
    asked for, the parent's otherwise. *)
Definition new_namespaces (flags : Z) (fresh : nat) (ns : Namespaces)
    (pid_ns : nat) : Namespaces :=
  {| ns_uts := if has_flag flags CLONE_NEWUTS then fresh else ns_uts ns;
     ns_pid := if has_flag flags CLONE_NEWPID then fresh else pid_ns;
     ns_mnt := if has_flag flags CLONE_NEWNS then fresh else ns_mnt ns |}.

(** A new namespace starts as a copy of the one it is split from. *)
Definition split_ns {A} (m : gmap nat A) (old new : nat) : gmap nat A :=
  match m !! old with
  | Some a => <[new := a]> m
  | None => m
  end.

Definition sys_clone (flags : Z) (me : Process) (w : World) : Z * World :=
  let ns := new_namespaces flags (next_ns w) (proc_ns me)
              (proc_pid_for_children me) in
  let child := {| proc_ns := ns; proc_pid_for_children := ns_pid ns;
                  proc_image := proc_image me |} in
  (next_pid w,
   {| self := self w;
      procs := <[next_pid w := child]> (procs w);
      hostnames := split_ns (hostnames w) (ns_uts (proc_ns me)) (ns_uts ns);
      mounts := split_ns (mounts w) (ns_mnt (proc_ns me)) (ns_mnt ns);
      next_pid := next_pid w + 1;
      next_ns := S (next_ns w) |}).

(** [unshare] moves the caller into new UTS and mount namespaces; a new PID
    namespace is for the children it creates afterwards, the caller stays in
    its own. *)
Definition sys_unshare (flags : Z) (me : Process) (w : World) : Z * World :=
  let ns := new_namespaces flags (next_ns w) (proc_ns me)
              (proc_pid_for_children me) in
  let me' := {| proc_ns := {| ns_uts := ns_uts ns;
                              ns_pid := ns_pid (proc_ns me);
                              ns_mnt := ns_mnt ns |};
                proc_pid_for_children := ns_pid ns;
                proc_image := proc_image me |} in
  (0,
   {| self := self w;
      procs := <[self w := me']> (procs w);
      hostnames := split_ns (hostnames w) (ns_uts (proc_ns me)) (ns_uts ns);
      mounts := split_ns (mounts w) (ns_mnt (proc_ns me)) (ns_mnt ns);
      next_pid := next_pid w;
      next_ns := S (next_ns w) |}).

Definition sys_sethostname (name : string) (me : Process) (w : World)
  : Z * World :=
  (0,
   {| self := self w;
      procs := procs w;
      hostnames := <[ns_uts (proc_ns me) := name]> (hostnames w);
      mounts := mounts w;
      next_pid := next_pid w;
      next_ns := next_ns w |}).

Definition sys_execv (path : string) (me : Process) (w : World) : Z * World :=
  (0,
   {| self := self w;
      procs := <[self w := {| proc_ns := proc_ns me;
                              proc_pid_for_children := proc_pid_for_children me;
                              proc_image := path |}]>
                 (procs w);
      hostnames := hostnames w;
      mounts := mounts w;
      next_pid := next_pid w;
      next_ns := next_ns w |}).

Definition sys_waitpid (pid : Z) (w : World) : Z * World :=
  match procs w !! pid with
  | Some _ =>
      if decide (pid = self w) then (-1, w)
      else
        (pid,
         {| self := self w;
            procs := delete pid (procs w);
            hostnames := hostnames w;
            mounts := mounts w;
            next_pid := next_pid w;
            next_ns := next_ns w |})
  | None => (-1, w)
  end.

Definition kernel : Handler World := fun s w =>
  match procs w !! self w with
  | None => (-1, w)
  | Some me =>
      match s with
      | SysClone flags => sys_clone flags me w
      | SysFork => sys_clone 0 me w
      | SysUnshare flags => sys_unshare flags me w
      | SysSetns _ _ => (-1, w)
      | SysSethostname name => sys_sethostname name me w
      | SysExecv path _ => sys_execv path me w
      | SysWaitpid pid => sys_waitpid pid w
      end
  end.

(** A call that makes a process or moves one between namespaces. *)
Definition clone_style (s : Syscall) : bool :=
  match s with
  | SysClone _ | SysUnshare _ | SysSetns _ _ | SysFork => true
  | _ => false
  end.

(** What "the launch makes, in one combined operation, a new process that
    starts inside new UTS, PID and mount namespaces" says of a run [o] from
    the state [w]: the run is a single [clone], the table has a process it
    did not have, and none of that process's three namespaces is the
    caller's. *)
Definition launches_atomically (w : World) (o : jint * World * list Syscall)
  : Prop :=
  exists flags pid me child,
    calls o = [SysClone flags]
    /\ procs w !! self w = Some me
    /\ procs w !! pid = None
    /\ procs (final o) !! pid = Some child
    /\ ns_uts (proc_ns child) <> ns_uts (proc_ns me)
    /\ ns_pid (proc_ns child) <> ns_pid (proc_ns me)
    /\ ns_mnt (proc_ns child) <> ns_mnt (proc_ns me).

End kernel.

(** A machine just booted: one process, in the initial namespaces. *)
Definition boot : World := {|
  self := 1;
  procs := {[ 1 := {| proc_ns := {| ns_uts := 0; ns_pid := 0; ns_mnt := 0 |};
                      proc_pid_for_children := 0;
                      proc_image := "app_process" |} ]};
  hostnames := {[ 0%nat := "localhost" ]};
  mounts := {[ 0%nat := ["/"; "/proc"] ]};
  next_pid := 2;
  next_ns := 1
|}.

(** ** The launcher the specification designs

    The specification goes on to design the launcher this entry point is a
    placeholder for: [launch], [wait], [signal] and [poll] over a table of
    handles.  The repository implements none of it, so the definitions below
    follow the specification's text. *)

(** Modelled from the spec: IsolationOptions (section 3), absent from the
    repository.  The requested kinds, the command (path and argument list),
    the optional working directory and the optional hostname override. *)
Record IsolationOptions := {
  namespace_kinds : list NamespaceKind;
  command_path : string;
  argument_list : list string;
  working_directory : option string;
  hostname_override : option string
}.

(** Modelled from the spec: the exit status [wait] returns, "normal exit code,
    or signal that terminated it" (section 4.1). *)
Inductive ExitStatus := ExitCode (code : Z) | KilledBy (sig : Z).

(** Modelled from the spec: the lifecycle state of a tracked process, created
    running and "exited" once the system reports its termination. *)
Inductive LifecycleState := Running | Exited.

(** Modelled from the spec: the error taxonomy of section 7. *)
Inductive LaunchError :=
| PermissionDenied
| UnsupportedNamespaceKind
| ProcessCreationFailed (errno : Z)
| CommandNotExecutable
| NotFound.

(** Modelled from the spec: what the launcher tracks for a handle: the
    process identifier, the lifecycle state and the last-observed exit status,
    absent until the process exits. *)
Record Tracked := {
  pid : Z;
  state : LifecycleState;
  last_status : option ExitStatus
}.

(** Modelled from the spec: the launcher's "internal mapping from handle
    identity to tracking metadata".  Process ids are recycled by the system,
    so a handle is not a raw id: handles are numbered by the launcher. *)
Record Launcher := {
  table : gmap nat Tracked;
  next_handle : nat
}.

Definition idle : Launcher := {| table := ∅; next_handle := 0 |}.

(** Modelled from the spec: what the child does inside its namespaces before
    the command runs: the hostname change (UTS) and making its mounts private
    (mount). *)
Inductive SetupStep := SetHostname (name : string) | MakeMountsPrivate.

(** Why a child ends before it runs the command. *)
Inductive ChildFailure :=
| SetupFailed (s : SetupStep) (errno : Z)
| ExecFailed.

(** What happens in the child, in order: it starts, already inside the new
    namespaces (the first process of the PID namespace when that kind is
    requested), performs setup steps, and replaces its image by the command or
    terminates. *)
Inductive ChildEvent :=
| Started (ks : list NamespaceKind)
| Setup (s : SetupStep)
| Exec (path : string) (args : list string)
| Terminate (why : ChildFailure).

(** Modelled from the spec: the host the launcher runs on, as far as the
    launcher's results depend on it: the kinds it supports, the kinds the
    caller may create, what the combined creation call answers (a process id
    or an error code), whether a setup step fails, which paths are executable
    files, and for a process its exit status, whether it has terminated and
    whether a signal can be delivered to it. *)
Record Host := {
  supports : NamespaceKind -> bool;
  capable : NamespaceKind -> bool;
  creation : Z + Z;
  setup_errno : SetupStep -> option Z;
  executable : string -> bool;
  exit_status : Z -> ExitStatus;
  terminated : Z -> bool;
  deliverable : Z -> Z -> bool
}.

(** Modelled from the spec: the setup the options ask for: "if UTS isolation
    was requested, the hostname may be changed", "if mount isolation was
    requested, the process's view of mounts is made private". *)
Definition setup_steps (o : IsolationOptions) : list SetupStep :=
  (if bool_decide (UTS ∈ namespace_kinds o) then
     match hostname_override o with
     | Some name => [SetHostname name]
     | None => []
     end
   else [])
  ++ (if bool_decide (Mount ∈ namespace_kinds o) then [MakeMountsPrivate]
      else []).

(** The child performs the steps in order and stops at the first that fails:
    "the child terminates itself distinctly rather than continuing". *)
Fixpoint child_setup (host : Host) (steps : list SetupStep)
  : list ChildEvent * option ChildFailure :=
  match steps with
  | [] => ([], None)
  | st :: rest =>
      match setup_errno host st with
      | Some errno => ([Terminate (SetupFailed st errno)],
                       Some (SetupFailed st errno))
      | None =>
          let '(tr, r) := child_setup host rest in (Setup st :: tr, r)
      end
  end.

(** Modelled from the spec: the child of a launch.  "After namespace setup
    succeeds, the new process replaces its program image with the requested
    command; if this replacement fails, the new process must terminate
    immediately". *)
Definition child (host : Host) (o : IsolationOptions)
  : list ChildEvent * option ChildFailure :=
  let '(tr, r) := child_setup host (setup_steps o) in
  match r with
  | Some why => (Started (namespace_kinds o) :: tr, Some why)
  | None =>
      if executable host (command_path o) then
        (Started (namespace_kinds o) :: tr
           ++ [Exec (command_path o) (argument_list o)], None)
      else
        (Started (namespace_kinds o) :: tr ++ [Terminate ExecFailed],
         Some ExecFailed)
  end.

(** Modelled from the spec: [launch] (section 4.1).  It validates the options
    (the command path must be non-empty), fails before any process is created
    on a kind the host does not support or the caller may not create, performs
    the combined creation, and tracks the new process under a fresh handle
    once its child runs the command.  The result comes with the launcher's new
    state and the child's events. *)
Definition launch (host : Host) (o : IsolationOptions) (s : Launcher)
  : (LaunchError + nat) * Launcher * list ChildEvent :=
  if decide (command_path o = EmptyString) then (inl CommandNotExecutable, s, [])
  else if negb (forallb (supports host) (namespace_kinds o)) then
    (inl UnsupportedNamespaceKind, s, [])
  else if negb (forallb (capable host) (namespace_kinds o)) then
    (inl PermissionDenied, s, [])
  else
    match creation host with
    | inr errno => (inl (ProcessCreationFailed errno), s, [])
    | inl p =>
        match child host o with
        | (tr, None) =>
            (inr (next_handle s),
             {| table := <[next_handle s :=
                             {| pid := p; state := Running;
                                last_status := None |}]> (table s);
                next_handle := S (next_handle s) |},
             tr)
        | (tr, Some ExecFailed) => (inl CommandNotExecutable, s, tr)
        | (tr, Some (SetupFailed _ errno)) =>
            (inl (ProcessCreationFailed errno), s, tr)
        end
    end.

(** Modelled from the spec: [wait] returns the exit status of the tracked
    process and removes its tracking entry (the reap); on a handle that is not
    tracked it is the error [NotFound]. *)
Definition wait (host : Host) (h : nat) (s : Launcher)
  : (LaunchError + ExitStatus) * Launcher :=
  match table s !! h with
  | None => (inl NotFound, s)
  | Some t =>
      (inr (exit_status host (pid t)),
       {| table := delete h (table s); next_handle := next_handle s |})
  end.

(** Modelled from the spec: [signal] "fails with NotFound if already reaped,
    fails with PermissionDenied if the signal cannot be delivered". *)
Definition signal (host : Host) (h : nat) (sig : Z) (s : Launcher)
  : (LaunchError + unit) * Launcher :=
  match table s !! h with
  | None => (inl NotFound, s)
  | Some t =>
      if deliverable host (pid t) sig then (inr (), s)
      else (inl PermissionDenied, s)
  end.

(** Modelled from the spec: [poll], the non-blocking check; it records the
    termination it observes and "does not consume the exit status". *)
Definition poll (host : Host) (h : nat) (s : Launcher)
  : (LaunchError + LifecycleState) * Launcher :=
  match table s !! h with
  | None => (inl NotFound, s)
  | Some t =>
      if terminated host (pid t) then
        (inr Exited,
         {| table := <[h := {| pid := pid t; state := Exited;
                               last_status := Some (exit_status host (pid t)) |}]>
                       (table s);
            next_handle := next_handle s |})
      else (inr (state t), s)
  end.

(** A caller's request to the launcher, with the host as it is at that time. *)
Inductive Request :=
| DoLaunch (host : Host) (o : IsolationOptions)
| DoWait (host : Host) (h : nat)
| DoSignal (host : Host) (h : nat) (sig : Z)
| DoPoll (host : Host) (h : nat).

(** The launcher's state after a request, and after a sequence of them. *)
Definition serve (s : Launcher) (r : Request) : Launcher :=
  match r with
  | DoLaunch host o => (launch host o s).1.2
  | DoWait host h => (wait host h s).2
  | DoSignal host h sig => (signal host h sig s).2
  | DoPoll host h => (poll host h s).2
  end.

Definition serve_all (s : Launcher) (rs : list Request) : Launcher :=
  foldl serve s rs.

(** Every tracked handle was handed out: it is below the next one. *)
Definition handles_fresh (s : Launcher) : Prop :=
  forall h, is_Some (table s !! h) -> (h < next_handle s)%nat.

(** A host where everything works, and a request for full isolation. *)
Definition friendly_host : Host := {|
  supports := fun _ => true;
  capable := fun _ => true;
  creation := inl 4242;
  setup_errno := fun _ => None;
  executable := fun p => bool_decide (p = "/system/bin/sh");
  exit_status := fun _ => ExitCode 0;
  terminated := fun _ => false;
  deliverable := fun _ _ => true
|}.

Definition shell_options : IsolationOptions := {|
  namespace_kinds := [UTS; PID; Mount];
  command_path := "/system/bin/sh";
  argument_list := ["sh"];
  working_directory := None;
  hostname_override := Some "toy"
|}.

(** The same request for a command that does not exist. *)
Definition missing_command : IsolationOptions := {|
  namespace_kinds := [UTS; PID; Mount];
  command_path := "/no/such/file";
  argument_list := [];
  working_directory := None;
  hostname_override := Some "toy"
|}.

(** ** Arithmetic of [int] *)

Lemma is_int_shiftr z : is_int z <-> (z ≫ 31 = 0 \/ z ≫ 31 = -1).
Proof.
  unfold is_int, int_min, int_max. rewrite Z.shiftr_div_pow2 by lia.
  change (2 ^ 31) with 2147483648.
  split; intros Hz.
  - Z.to_euclidean_division_equations. lia.
  - Z.to_euclidean_division_equations. lia.
Qed.

Lemma is_int_lor a b : is_int a -> is_int b -> is_int (Z.lor a b).
Proof.
  rewrite !is_int_shiftr, Z.shiftr_lor.
  intros [-> | ->] [-> | ->]; simpl; auto.
Qed.

Lemma to_int_id z : is_int z -> to_int z = z.
Proof.
  unfold is_int, int_min, int_max, to_int. intros Hz.
  rewrite Z.mod_small; lia.
Qed.

Lemma is_int_to_int z : is_int (to_int z).
Proof.
  unfold is_int, int_min, int_max, to_int.
  pose proof (Z.mod_pos_bound (z + 2 ^ 31) (2 ^ 32)). lia.
Qed.

Lemma int_or_lor a b : is_int a -> is_int b -> int_or a b = Z.lor a b.
Proof. intros Ha Hb. apply to_int_id, is_int_lor; assumption. Qed.

Lemma is_int_int_or a b : is_int (int_or a b).
Proof. apply is_int_to_int. Qed.

(** ** The function's result *)

Section createNamespacedProcess_facts.
Context `{sched_h}.

Lemma kind_flag_is_int k : int_flags -> is_int (kind_flag k).
Proof. intros (Hu & Hp & Hn). destruct k; assumption. Qed.

(** The function is a single [Return] node. *)
Lemma createNamespacedProcess_run {W} (h : Handler W) (w : W) env clazz :
  run h (createNamespacedProcess env clazz) w
  = (to_jint (int_or (int_or CLONE_NEWUTS CLONE_NEWPID) CLONE_NEWNS), w, []).
Proof. reflexivity. Qed.

(** With [int] flags neither [|] nor the conversion to [jint] wraps. *)
Lemma createNamespacedProcess_mask :
  int_flags ->
  to_jint (int_or (int_or CLONE_NEWUTS CLONE_NEWPID) CLONE_NEWNS)
  = Z.lor (Z.lor CLONE_NEWUTS CLONE_NEWPID) CLONE_NEWNS.
Proof.
  intros (Hu & Hp & Hn). unfold to_jint.
  rewrite (int_or_lor CLONE_NEWUTS CLONE_NEWPID) by assumption.
  rewrite to_int_id by apply is_int_int_or.
  apply int_or_lor; [apply is_int_lor|]; assumption.
Qed.

Lemma foldl_int_or acc fs :
  is_int acc -> Forall is_int fs -> foldl int_or acc fs = foldl Z.lor acc fs.
Proof.
  intros Hacc Hfs. revert acc Hacc.
  induction Hfs as [|f fs Hf _ IH]; intros acc Hacc; simpl; [reflexivity|].
  rewrite int_or_lor by assumption. apply IH, is_int_lor; assumption.
Qed.

Lemma testbit_foldl_lor acc fs i :
  Z.testbit (foldl Z.lor acc fs) i
  = Z.testbit acc i || existsb (fun f => Z.testbit f i) fs.
Proof.
  revert acc. induction fs as [|f fs IH]; intros acc; simpl.
  - now rewrite orb_false_r.
  - rewrite IH, Z.lor_spec. now rewrite orb_assoc.
Qed.

Lemma foldl_foldr_lor acc fs :
  foldl Z.lor acc fs = Z.lor acc (foldr Z.lor 0 fs).
Proof.
  revert acc. induction fs as [|f fs IH]; intros acc; simpl.
  - now rewrite Z.lor_0_r.
  - now rewrite IH, Z.lor_assoc.
Qed.

Lemma request_testbit ks i :
  int_flags -> Z.testbit (request ks) i = requested_bit ks i.
Proof.
  intros Hint. unfold request, requested_bit.
  destruct ks as [|k ks]; simpl; [apply Z.testbit_0_l|].
  rewrite foldl_int_or.
  - rewrite testbit_foldl_lor. f_equal.
    induction ks as [|k' ks IH]; simpl; [reflexivity|now rewrite IH].
  - now apply kind_flag_is_int.
  - apply Forall_fmap, Forall_forall. intros k' _. now apply kind_flag_is_int.
Qed.

Lemma request_foldr ks :
  int_flags -> request ks = foldr Z.lor 0 (kind_flag <$> ks).
Proof.
  intros Hint. unfold request. destruct ks as [|k ks]; simpl; [reflexivity|].
  rewrite foldl_int_or, foldl_foldr_lor; [reflexivity| |].
  - now apply kind_flag_is_int.
  - apply Forall_fmap, Forall_forall. intros k' _. now apply kind_flag_is_int.
Qed.

Lemma requested_bit_elem_of ks i :
  requested_bit ks i = true
  <-> exists k, k ∈ ks /\ Z.testbit (kind_flag k) i = true.
Proof.
  unfold requested_bit. rewrite existsb_exists.
  split; intros (k & Hk & Hb); exists k; split; trivial;
    now apply list_elem_of_In.
Qed.

Lemma request_same_kinds ks ks' :
  int_flags -> (forall k, k ∈ ks <-> k ∈ ks') -> request ks = request ks'.
Proof.
  intros Hint Hsame. apply Z.bits_inj'. intros i _.
  rewrite !request_testbit by assumption.
  apply eq_true_iff_eq. rewrite !requested_bit_elem_of.
  split; intros (k & Hk & Hb); exists k; split; trivial; now apply Hsame.
Qed.

End createNamespacedProcess_facts.

(** ** What the specification says of the function *)

(** C1: every invocation of [createNamespacedProcess] returns the bitwise
    union [CLONE_NEWUTS | CLONE_NEWPID | CLONE_NEWNS] of exactly the three
    namespace flags: the value is that union, and a bit of the result is set
    only where one of the three flags has it. *)
Theorem createNamespacedProcess_returns_union `{sched_h} {W}
    (h : Handler W) (w : W) (env : JNIEnv_ptr) (clazz : jclass) :
  int_flags ->
  let r := result (run h (createNamespacedProcess env clazz) w) in
  r = Z.lor (Z.lor CLONE_NEWUTS CLONE_NEWPID) CLONE_NEWNS
  /\ forall i,
       Z.testbit r i
       = Z.testbit CLONE_NEWUTS i || Z.testbit CLONE_NEWPID i
         || Z.testbit CLONE_NEWNS i.
Proof.
  intros Hint r. subst r. rewrite createNamespacedProcess_run.
  unfold result; simpl. rewrite createNamespacedProcess_mask by assumption.
  split; [reflexivity|]. intros i. now rewrite !Z.lor_spec.
Qed.

Lemma createNamespacedProcess_returns_union_witness :
  @int_flags linux_sched_h
  /\ let r := result (run (@kernel linux_sched_h)
                        (@createNamespacedProcess linux_sched_h 0 0) boot) in
     r = Z.lor (Z.lor 0x04000000 0x20000000) 0x00020000
     /\ forall i,
          Z.testbit r i
          = Z.testbit 0x04000000 i || Z.testbit 0x20000000 i
            || Z.testbit 0x00020000 i.
Proof.
  assert (Hint : @int_flags linux_sched_h).
  { unfold int_flags, is_int, int_min, int_max; simpl. lia. }
  split; [exact Hint|].
  exact (@createNamespacedProcess_returns_union linux_sched_h World
           (@kernel linux_sched_h) boot 0 0 Hint).
Defined.

(** C2: a call to [createNamespacedProcess] has no side effect.  Whatever the
    system calls do and whatever state they act on, the call makes none of
    them and leaves the state as it was; in particular the caller's
    namespaces, the process table, the hostname and the mounts are unchanged. *)
Theorem createNamespacedProcess_no_side_effect `{sched_h}
    (env : JNIEnv_ptr) (clazz : jclass) :
  (forall W (h : Handler W) (w : W),
     let o := run h (createNamespacedProcess env clazz) w in
     calls o = [] /\ final o = w)
  /\ forall (h : Handler World) (w : World),
       let o := run h (createNamespacedProcess env clazz) w in
       caller_namespaces (final o) = caller_namespaces w
       /\ procs (final o) = procs w
       /\ caller_hostname (final o) = caller_hostname w
       /\ hostnames (final o) = hostnames w
       /\ caller_mounts (final o) = caller_mounts w
       /\ mounts (final o) = mounts w.
Proof.
  split.
  - intros W h w o. subst o. rewrite createNamespacedProcess_run. now split.
  - intros h w o. subst o. rewrite createNamespacedProcess_run.
    unfold final; simpl. repeat split.
Qed.

(** What the mask is for: under the kernel's semantics a single [clone] with
    the mask the function computes makes a process in new UTS, PID and mount
    namespaces. *)
Example clone_launches_atomically :
  launches_atomically boot
    (run (@kernel linux_sched_h)
       (Call (SysClone (@request linux_sched_h [UTS; PID; Mount])) Return)
       boot).
Proof.
  exists (@request linux_sched_h [UTS; PID; Mount]), 2,
    {| proc_ns := {| ns_uts := 0; ns_pid := 0; ns_mnt := 0 |};
       proc_pid_for_children := 0;
       proc_image := "app_process" |},
    {| proc_ns := {| ns_uts := 1; ns_pid := 1; ns_mnt := 1 |};
       proc_pid_for_children := 1;
       proc_image := "app_process" |}.
  repeat split; try reflexivity; simpl; lia.
Qed.

(** C5: the computed flags are returned and not used.  The function is the
    one node that returns the mask, so under any semantics of the system
    calls it makes no [clone]-style call, with the mask or any other
    argument, and its result is the mask. *)
Theorem createNamespacedProcess_flags_only_returned `{sched_h}
    (env : JNIEnv_ptr) (clazz : jclass) :
  let flags := int_or (int_or CLONE_NEWUTS CLONE_NEWPID) CLONE_NEWNS in
  createNamespacedProcess env clazz = Return (to_jint flags)
  /\ forall W (h : Handler W) (w : W),
       let o := run h (createNamespacedProcess env clazz) w in
       result o = to_jint flags
       /\ (forall s, s ∈ calls o -> clone_style s = false)
       /\ SysClone flags ∉ calls o.
Proof.
  intros flags. split; [reflexivity|].
  intros W h w o. subst o. rewrite createNamespacedProcess_run.
  unfold result, calls; simpl. repeat split.
  - intros s Hs. inversion Hs.
  - intros Hs. inversion Hs.
Qed.

(** C9: [createNamespacedProcess] is deterministic and its result does not
    depend on its arguments: any two invocations, with any [env] and [clazz],
    from any states and under any semantics of the system calls, return the
    same value. *)
Theorem createNamespacedProcess_independent_of_inputs `{sched_h} {W1 W2}
    (h1 : Handler W1) (h2 : Handler W2) (w1 : W1) (w2 : W2)
    (env1 env2 : JNIEnv_ptr) (clazz1 clazz2 : jclass) :
  createNamespacedProcess env1 clazz1 = createNamespacedProcess env2 clazz2
  /\ result (run h1 (createNamespacedProcess env1 clazz1) w1)
     = result (run h2 (createNamespacedProcess env2 clazz2) w2).
Proof. split; reflexivity. Qed.

(** C4: namespace-kind flags combine by bitwise union.  The request for any
    kinds is the bitwise OR of their flags, bit by bit and as a value; it is
    the same for every ordering of the kinds, asking for a kind twice is
    asking for it once, so it depends only on the set of kinds; and what the
    function returns is the request for UTS, PID and mount. *)
Theorem namespace_flags_combine_by_union `{sched_h} :
  int_flags ->
  (forall ks i, Z.testbit (request ks) i = requested_bit ks i)
  /\ (forall ks, request ks = foldr Z.lor 0 (kind_flag <$> ks))
  /\ (forall ks ks', ks ≡ₚ ks' -> request ks = request ks')
  /\ (forall k ks, request (k :: k :: ks) = request (k :: ks))
  /\ (forall ks ks', (forall k, k ∈ ks <-> k ∈ ks') -> request ks = request ks')
  /\ forall W (h : Handler W) (w : W) env clazz,
       result (run h (createNamespacedProcess env clazz) w)
       = request [UTS; PID; Mount].
Proof.
  intros Hint. repeat apply conj.
  - intros ks i. now apply request_testbit.
  - intros ks. now apply request_foldr.
  - intros ks ks' Hperm. apply request_same_kinds; [assumption|].
    intros k. now rewrite Hperm.
  - intros k ks. apply request_same_kinds; [assumption|].
    intros k'. rewrite !elem_of_cons. tauto.
  - intros ks ks'. now apply request_same_kinds.
  - intros W h w env clazz. rewrite createNamespacedProcess_run.
    unfold result; simpl. apply to_int_id, is_int_int_or.
Qed.

Lemma namespace_flags_combine_by_union_witness :
  @int_flags linux_sched_h
  /\ @request linux_sched_h [Mount; UTS; PID; UTS]
     = @request linux_sched_h [UTS; PID; Mount]
  /\ result (run (@kernel linux_sched_h)
               (@createNamespacedProcess linux_sched_h 0 0) boot)
     = @request linux_sched_h [PID; Mount; UTS].
Proof.
  assert (Hint : @int_flags linux_sched_h).
  { unfold int_flags, is_int, int_min, int_max; simpl. lia. }
  destruct (@namespace_flags_combine_by_union linux_sched_h Hint)
    as (_ & _ & _ & _ & Hset & Hfun).
  split; [exact Hint|]. split.
  - apply Hset. intros k. rewrite !elem_of_cons, !elem_of_nil.
    destruct k; intuition congruence.
  - rewrite Hfun. apply Hset. intros k. rewrite !elem_of_cons, !elem_of_nil.
    destruct k; intuition congruence.
Defined.

(** The decimal value C10 gives is not the value returned: [604241920] is
    [0x24040000]. *)
Lemma createNamespacedProcess_not_604241920 :
  result (run (@kernel linux_sched_h)
            (@createNamespacedProcess linux_sched_h 0 0) boot)
  <> 604241920.
Proof. vm_compute. discriminate. Qed.

(** C10, with the decimal value put right: with the Linux values of the flags
    [createNamespacedProcess] returns exactly [0x24020000], that is
    [604110848], the exact integer [0x04000000 | 0x20000000 | 0x00020000]; the
    value is positive and an [int], so neither [|] nor the conversion to
    [jint] wraps or changes its sign. *)
Theorem createNamespacedProcess_value {W} (h : Handler W) (w : W)
    (env : JNIEnv_ptr) (clazz : jclass) :
  let r := result (run h (@createNamespacedProcess linux_sched_h env clazz) w) in
  let exact := Z.lor (Z.lor 0x04000000 0x20000000) 0x00020000 in
  r = 0x24020000
  /\ r = 604110848
  /\ r = exact
  /\ 0 < r
  /\ is_int r
  /\ to_jint exact = exact.
Proof.
  intros r exact. subst r exact. rewrite createNamespacedProcess_run.
  unfold result, is_int, int_min, int_max; simpl.
  vm_compute. repeat split; discriminate.
Qed.

(** ** The launcher's table of handles *)

Section launcher_facts.

Lemma handles_fresh_idle : handles_fresh idle.
Proof. intros h [t Ht]. simpl in Ht. now rewrite lookup_empty in Ht. Qed.

(** A request never hands a handle out again: the counter does not go down,
    tracked handles stay below it, and a handle that was handed out and is
    no longer tracked stays untracked. *)
Lemma serve_keeps_reaped s r h :
  handles_fresh s -> table s !! h = None -> (h < next_handle s)%nat ->
  handles_fresh (serve s r)
  /\ table (serve s r) !! h = None
  /\ (h < next_handle (serve s r))%nat.
Proof.
  intros Hfresh Hnone Hlt.
  destruct r as [host o|host h'|host h' sig|host h']; simpl.
  - unfold launch. repeat case_match; simpl; auto.
    repeat split; simpl.
    + intros k [tk Hk]. simpl in *.
      destruct (decide (next_handle s = k)) as [<-|Hne].
      * lia.
      * rewrite lookup_insert_ne in Hk by assumption.
        specialize (Hfresh k (ex_intro _ tk Hk)). lia.
    + rewrite lookup_insert_ne by lia. assumption.
    + lia.
  - unfold wait. case_match; simpl; auto.
    repeat split; simpl; trivial.
    + intros k [tk Hk]. simpl in *. apply Hfresh. exists tk.
      destruct (decide (h' = k)) as [<-|Hne].
      * now rewrite lookup_delete_eq in Hk.
      * now rewrite lookup_delete_ne in Hk.
    + destruct (decide (h' = h)) as [<-|Hne].
      * apply lookup_delete_eq.
      * now rewrite lookup_delete_ne.
  - unfold signal. repeat case_match; simpl; auto.
  - unfold poll. repeat case_match; simpl; auto.
    assert (h' <> h) by congruence.
    repeat split; simpl; trivial.
    + intros k [tk Hk]. simpl in *.
      destruct (decide (h' = k)) as [<-|Hne].
      * apply Hfresh. eauto.
      * rewrite lookup_insert_ne in Hk by assumption. apply Hfresh. eauto.
    + now rewrite lookup_insert_ne.
Qed.

Lemma serve_all_keeps_reaped rs s h :
  handles_fresh s -> table s !! h = None -> (h < next_handle s)%nat ->
  table (serve_all s rs) !! h = None.
Proof.
  revert s. induction rs as [|r rs IH]; intros s Hfresh Hnone Hlt; simpl.
  - assumption.
  - destruct (serve_keeps_reaped s r h Hfresh Hnone Hlt) as (Hf & Hn & Hl).
    now apply IH.
Qed.

Lemma serve_keeps_fresh s r : handles_fresh s -> handles_fresh (serve s r).
Proof.
  intros Hfresh.
  destruct r as [host o|host h'|host h' sig|host h']; simpl.
  - unfold launch. repeat case_match; simpl; auto.
    intros k [tk Hk]. simpl in *. destruct (decide (next_handle s = k)) as [<-|Hne].
    + lia.
    + rewrite lookup_insert_ne in Hk by assumption.
      specialize (Hfresh k (ex_intro _ tk Hk)). lia.
  - unfold wait. case_match; simpl; auto.
    intros k [tk Hk]. apply Hfresh. exists tk. simpl in Hk.
    destruct (decide (h' = k)) as [<-|Hne].
    + now rewrite lookup_delete_eq in Hk.
    + now rewrite lookup_delete_ne in Hk.
  - unfold signal. repeat case_match; simpl; auto.
  - unfold poll. repeat case_match; simpl; auto.
    intros k [tk Hk]. simpl in Hk. destruct (decide (h' = k)) as [<-|Hne].
    + apply Hfresh. eauto.
    + rewrite lookup_insert_ne in Hk by assumption. apply Hfresh. eauto.
Qed.

Lemma serve_all_keeps_fresh rs s :
  handles_fresh s -> handles_fresh (serve_all s rs).
Proof.
  revert s. induction rs as [|r rs IH]; intros s Hfresh; simpl; [assumption|].
  now apply IH, serve_keeps_fresh.
Qed.

(** The events of a child's setup: all steps done, or the steps before the
    failing one and the termination. *)
Lemma child_setup_events host steps :
  match child_setup host steps with
  | (tr, None) =>
      tr = Setup <$> steps /\ forall st, st ∈ steps -> setup_errno host st = None
  | (tr, Some why) =>
      exists done, tr = (Setup <$> done) ++ [Terminate why]
  end.
Proof.
  induction steps as [|st steps IH]; simpl.
  - split; [reflexivity|]. intros st Hst. inversion Hst.
  - destruct (setup_errno host st) as [errno|] eqn:Hst.
    + exists []. reflexivity.
    + destruct (child_setup host steps) as [tr [why|]].
      * destruct IH as [done ->]. exists (st :: done). reflexivity.
      * destruct IH as [-> Hall]. split; [reflexivity|].
        intros st' [->|Hin]%elem_of_cons; auto.
Qed.

Lemma exec_not_setup p a (steps : list SetupStep) :
  Exec p a ∉ (Setup <$> steps : list ChildEvent).
Proof. intros (st & Heq & _)%list_elem_of_fmap. discriminate Heq. Qed.

(** The events of a child: it starts, sets up, and then either runs the
    command, as its last event, or terminates without having run it. *)
Lemma child_events host o :
  match child host o with
  | (tr, None) =>
      tr = Started (namespace_kinds o) :: (Setup <$> setup_steps o)
             ++ [Exec (command_path o) (argument_list o)]
      /\ executable host (command_path o) = true
      /\ forall st, st ∈ setup_steps o -> setup_errno host st = None
  | (tr, Some why) =>
      exists done,
        tr = Started (namespace_kinds o) :: (Setup <$> done)
               ++ [Terminate why]
  end.
Proof.
  unfold child. pose proof (child_setup_events host (setup_steps o)) as Hs.
  destruct (child_setup host (setup_steps o)) as [tr [why|]].
  - destruct Hs as [done ->]. now exists done.
  - destruct Hs as [-> Hall].
    destruct (executable host (command_path o)) eqn:Hx.
    + auto.
    + now exists (setup_steps o).
Qed.

(** Where an event that is not in [l] can stand in [l ++ [e]]. *)
Lemma split_at_last {A} (l pre post : list A) (e : A) :
  e ∉ l -> l ++ [e] = pre ++ e :: post -> pre = l /\ post = [].
Proof.
  revert pre. induction l as [|x l IH]; intros pre Hnin Heq.
  - destruct pre as [|y pre]; simpl in Heq.
    + injection Heq as <-. now split.
    + injection Heq as _ Heq. now destruct pre.
  - destruct pre as [|y pre]; simpl in Heq.
    + injection Heq as -> _. exfalso. apply Hnin. left.
    + injection Heq as <- Heq.
      destruct (IH pre) as [-> ->]; [|assumption|now split].
      intros Hin. apply Hnin. now right.
Qed.

End launcher_facts.

(** ** What the specification says of the launcher *)

(** C6: on a handle whose process has been reaped, a second [wait] is the
    error [NotFound].  Whatever requests the launcher served before the first
    [wait] and whatever it serves between the two, the second [wait] returns
    [NotFound], not an exit status, and leaves the launcher as it is. *)
Theorem wait_twice_not_found (before after : list Request) (host host' : Host)
    (h : nat) (st : ExitStatus) :
  (wait host h (serve_all idle before)).1 = inr st ->
  let s1 := (wait host h (serve_all idle before)).2 in
  let s2 := serve_all s1 after in
  wait host' h s2 = (inl NotFound, s2).
Proof.
  intros Hwait s1 s2.
  pose proof (serve_all_keeps_fresh before idle handles_fresh_idle) as Hfresh.
  assert (Hreaped : table s2 !! h = None).
  { subst s2 s1. unfold wait in *.
    destruct (table (serve_all idle before) !! h) as [t|] eqn:Hh;
      [|discriminate Hwait].
    apply serve_all_keeps_reaped; simpl.
    - intros k [tk Hk]. simpl in Hk. apply Hfresh. exists tk.
      destruct (decide (h = k)) as [<-|Hne].
      + now rewrite lookup_delete_eq in Hk.
      + now rewrite lookup_delete_ne in Hk.
    - apply lookup_delete_eq.
    - apply Hfresh. eauto. }
  unfold wait. now rewrite Hreaped.
Qed.

Lemma wait_twice_not_found_witness :
  (wait friendly_host 0
     (serve_all idle [DoLaunch friendly_host shell_options])).1
  = inr (ExitCode 0)
  /\ let s1 := (wait friendly_host 0
                  (serve_all idle [DoLaunch friendly_host shell_options])).2 in
     let s2 := serve_all s1 [DoLaunch friendly_host shell_options;
                             DoPoll friendly_host 1] in
     wait friendly_host 0 s2 = (inl NotFound, s2).
Proof.
  split; [reflexivity|].
  exact (wait_twice_not_found
           [DoLaunch friendly_host shell_options]
           [DoLaunch friendly_host shell_options; DoPoll friendly_host 1]
           friendly_host friendly_host 0 (ExitCode 0) eq_refl).
Defined.

(** The outcome of a child's setup, with the step that failed. *)
Lemma child_setup_outcome host steps :
  match child_setup host steps with
  | (tr, None) =>
      tr = Setup <$> steps /\ forall st, st ∈ steps -> setup_errno host st = None
  | (tr, Some why) =>
      exists done st errno,
        why = SetupFailed st errno
        /\ st ∈ steps /\ setup_errno host st = Some errno
        /\ tr = (Setup <$> done) ++ [Terminate why]
  end.
Proof.
  induction steps as [|st steps IH]; simpl.
  - split; [reflexivity|]. intros st Hst. inversion Hst.
  - destruct (setup_errno host st) as [errno|] eqn:Hst.
    + exists [], st, errno. repeat split; trivial. left.
    + destruct (child_setup host steps) as [tr [why|]].
      * destruct IH as (done & st' & errno & -> & Hin & Herr & ->).
        exists (st :: done), st', errno. repeat split; trivial. now right.
      * destruct IH as [-> Hall]. split; [reflexivity|].
        intros st' [->|Hin]%elem_of_cons; auto.
Qed.

(** The outcome of a child, with the stage it reached. *)
Lemma child_outcome host o :
  match child host o with
  | (tr, None) =>
      executable host (command_path o) = true
      /\ tr = Started (namespace_kinds o) :: (Setup <$> setup_steps o)
                ++ [Exec (command_path o) (argument_list o)]
  | (tr, Some ExecFailed) =>
      executable host (command_path o) = false
      /\ (forall st, st ∈ setup_steps o -> setup_errno host st = None)
      /\ tr = Started (namespace_kinds o) :: (Setup <$> setup_steps o)
                ++ [Terminate ExecFailed]
  | (tr, Some (SetupFailed st errno)) =>
      st ∈ setup_steps o /\ setup_errno host st = Some errno
      /\ exists done,
           tr = Started (namespace_kinds o) :: (Setup <$> done)
                  ++ [Terminate (SetupFailed st errno)]
  end.
Proof.
  unfold child. pose proof (child_setup_outcome host (setup_steps o)) as Hs.
  destruct (child_setup host (setup_steps o)) as [tr [why|]].
  - destruct Hs as (done & st & errno & -> & Hin & Herr & ->). eauto.
  - destruct Hs as [-> Hall].
    destruct (executable host (command_path o)) eqn:Hx; auto.
Qed.

Lemma forallb_false {A} (f : A -> bool) (l : list A) :
  forallb f l = false -> exists x, x ∈ l /\ f x = false.
Proof.
  induction l as [|x l IH]; simpl; [discriminate|].
  destruct (f x) eqn:Hx; simpl.
  - intros (y & Hy & Hfy)%IH. exists y. split; [now right|assumption].
  - intros _. exists x. split; [left|assumption].
Qed.


(** C7: when the command path does not name an executable file, [launch]
    yields an error and no handle, and the error names the stage that failed.
    The launcher tracks nothing new; the child, if one was created, never ran
    a program and its last event is its termination.  When every earlier
    stage succeeds (the path is non-empty, the kinds are supported and
    permitted, the creation succeeds and so does every setup step) the error
    is [CommandNotExecutable] and the child ended at the failed program
    replacement; and each error [launch] can yield comes from its own stage:
    [CommandNotExecutable] from an empty path or the failed replacement,
    [UnsupportedNamespaceKind] and [PermissionDenied] from a requested kind
    the host lacks or forbids, before any process exists, and
    [ProcessCreationFailed] from the failed creation or a failed setup step,
    with that failure's error code. *)
Theorem launch_not_executable (host : Host) (o : IsolationOptions)
    (s : Launcher) :
  executable host (command_path o) = false ->
  let '(r, s', tr) := launch host o s in
  (exists e, r = inl e /\ e <> NotFound)
  /\ s' = s
  /\ (forall p a, Exec p a ∉ tr)
  /\ (tr = [] \/ exists tr' why, tr = tr' ++ [Terminate why])
  /\ (command_path o <> EmptyString ->
      forallb (supports host) (namespace_kinds o) = true ->
      forallb (capable host) (namespace_kinds o) = true ->
      (exists p, creation host = inl p) ->
      (forall st, st ∈ setup_steps o -> setup_errno host st = None) ->
      r = inl CommandNotExecutable
      /\ tr = Started (namespace_kinds o) :: (Setup <$> setup_steps o)
                ++ [Terminate ExecFailed])
  /\ (r = inl CommandNotExecutable ->
      (command_path o = EmptyString /\ tr = [])
      \/ exists tr', tr = tr' ++ [Terminate ExecFailed])
  /\ (r = inl UnsupportedNamespaceKind ->
      tr = []
      /\ exists k, k ∈ namespace_kinds o /\ supports host k = false)
  /\ (r = inl PermissionDenied ->
      tr = []
      /\ exists k, k ∈ namespace_kinds o /\ capable host k = false)
  /\ (forall errno, r = inl (ProcessCreationFailed errno) ->
      (tr = [] /\ creation host = inr errno)
      \/ exists st tr',
           st ∈ setup_steps o /\ setup_errno host st = Some errno
           /\ tr = tr' ++ [Terminate (SetupFailed st errno)]).
Proof.
  intros Hx. unfold launch.
  destruct (decide (command_path o = EmptyString)) as [Hempty|Hpath].
  { repeat apply conj; try discriminate; eauto.
    - intros p a Hin. inversion Hin.
    - intros Hne. now destruct Hne. }
  destruct (forallb (supports host) (namespace_kinds o)) eqn:Hsup; simpl.
  2:{ repeat apply conj; try discriminate; eauto.
      - intros p a Hin. inversion Hin.
      - intros _. split; [reflexivity|]. now apply forallb_false. }
  destruct (forallb (capable host) (namespace_kinds o)) eqn:Hcap; simpl.
  2:{ repeat apply conj; try discriminate; eauto.
      - intros p a Hin. inversion Hin.
      - intros _. split; [reflexivity|]. now apply forallb_false. }
  destruct (creation host) as [p|errno] eqn:Hcre.
  2:{ repeat apply conj; try discriminate; eauto.
      - intros p a Hin. inversion Hin.
      - intros _ _ _ [p Hp]. discriminate Hp.
      - intros errno' [= <-]. now left. }
  pose proof (child_outcome host o) as Hc.
  destruct (child host o) as [tr [[st errno|]|]].
  - destruct Hc as (Hin & Herr & done & ->).
    repeat apply conj; try discriminate; eauto.
    + intros q a [Heq|Hq]%elem_of_cons; [discriminate Heq|].
      apply elem_of_app in Hq as [Hq|Hq].
      * now apply exec_not_setup in Hq.
      * apply list_elem_of_singleton in Hq. discriminate Hq.
    + right. now exists (Started (namespace_kinds o) :: (Setup <$> done)),
        (SetupFailed st errno).
    + intros _ _ _ _ Hall. rewrite (Hall st Hin) in Herr. discriminate Herr.
    + intros errno' [= <-]. right.
      now exists st, (Started (namespace_kinds o) :: (Setup <$> done)).
  - destruct Hc as (_ & Hall & ->).
    repeat apply conj; try discriminate; eauto.
    + intros q a [Heq|Hq]%elem_of_cons; [discriminate Heq|].
      apply elem_of_app in Hq as [Hq|Hq].
      * now apply exec_not_setup in Hq.
      * apply list_elem_of_singleton in Hq. discriminate Hq.
    + right. now exists
        (Started (namespace_kinds o) :: (Setup <$> setup_steps o)), ExecFailed.
    + intros _. right.
      now exists (Started (namespace_kinds o) :: (Setup <$> setup_steps o)).
  - destruct Hc as (Hyes & _). congruence.
Qed.

Lemma launch_not_executable_witness :
  executable friendly_host (command_path missing_command) = false
  /\ (launch friendly_host missing_command idle).1.1 = inl CommandNotExecutable
  /\ (launch friendly_host missing_command idle).1.2 = idle
  /\ (launch friendly_host missing_command idle).2
     = Started [UTS; PID; Mount]
         :: (Setup <$> setup_steps missing_command) ++ [Terminate ExecFailed].
Proof.
  split; [reflexivity|].
  pose proof (launch_not_executable friendly_host missing_command idle eq_refl)
    as Hl.
  destruct (launch friendly_host missing_command idle) as [[r s'] tr].
  destruct Hl as (_ & Hs & _ & _ & Hstage & _).
  destruct Hstage as [Hr Htr].
  - discriminate.
  - reflexivity.
  - reflexivity.
  - now exists 4242.
  - intros st _. reflexivity.
  - simpl. repeat split; assumption.
Defined.


(** The launch of the shell on the friendly host: the child starts inside the
    three namespaces, sets itself up and runs the command. *)
Example launch_shell :
  (launch friendly_host shell_options idle).1.1 = inr 0%nat
  /\ (launch friendly_host shell_options idle).2
     = [Started [UTS; PID; Mount]; Setup (SetHostname "toy");
        Setup MakeMountsPrivate; Exec "/system/bin/sh" ["sh"]].
Proof. split; reflexivity. Qed.

(** The launch of a missing command on the friendly host: the error is
    [CommandNotExecutable], after the child has set itself up. *)
Example launch_missing_command :
  launch friendly_host missing_command idle
  = (inl CommandNotExecutable, idle,
     [Started [UTS; PID; Mount]; Setup (SetHostname "toy");
      Setup MakeMountsPrivate; Terminate ExecFailed]).
Proof. reflexivity. Qed.

(** C8: in the child the namespace setup is complete before the command
    begins.  Wherever the events of a launch hold the program replacement,
    what comes before it is the start of the child inside its namespaces
    followed by every setup step the options ask for, in order and each one
    successful; nothing comes after it, and the program is the requested
    command. *)
Theorem setup_before_exec (host : Host) (o : IsolationOptions) (s : Launcher)
    (pre post : list ChildEvent) (p : string) (a : list string) :
  (launch host o s).2 = pre ++ Exec p a :: post ->
  pre = Started (namespace_kinds o) :: (Setup <$> setup_steps o)
  /\ post = []
  /\ p = command_path o /\ a = argument_list o
  /\ (forall st, st ∈ setup_steps o -> setup_errno host st = None)
  /\ forall e, e ∈ post -> forall st, e <> Setup st.
Proof.
  intros Hsplit.
  assert (Hin : Exec p a ∈ (launch host o s).2).
  { rewrite Hsplit. apply elem_of_app. right. left. }
  assert (Htr : (launch host o s).2 = (child host o).1
                /\ (child host o).2 = None).
  { revert Hin. unfold launch.
    repeat case_match; simpl; intros Hin; try (now inversion Hin);
      subst; simpl.
    - exfalso. pose proof (child_events host o) as Hc.
      match goal with Hch : child host o = _ |- _ => rewrite Hch in Hc end.
      destruct Hc as [done ->].
      apply elem_of_cons in Hin as [Heq|Hin]; [discriminate Heq|].
      apply elem_of_app in Hin as [Hin|Hin].
      + now apply exec_not_setup in Hin.
      + apply list_elem_of_singleton in Hin. discriminate Hin.
    - exfalso. pose proof (child_events host o) as Hc.
      match goal with Hch : child host o = _ |- _ => rewrite Hch in Hc end.
      destruct Hc as [done ->].
      apply elem_of_cons in Hin as [Heq|Hin]; [discriminate Heq|].
      apply elem_of_app in Hin as [Hin|Hin].
      + now apply exec_not_setup in Hin.
      + apply list_elem_of_singleton in Hin. discriminate Hin. }
  destruct Htr as [Htr Hok]. rewrite Htr in Hsplit.
  pose proof (child_events host o) as Hc.
  destruct (child host o) as [tr [why|]]; simpl in *; [discriminate Hok|].
  destruct Hc as (-> & _ & Hall).
  assert (Hlast : Exec p a = Exec (command_path o) (argument_list o)).
  { assert (Hin' : Exec p a ∈ Started (namespace_kinds o)
                     :: (Setup <$> setup_steps o)
                     ++ [Exec (command_path o) (argument_list o)]) by
      (rewrite Hsplit; apply elem_of_app; right; left).
    apply elem_of_cons in Hin' as [Heq|Hin']; [discriminate Heq|].
    apply elem_of_app in Hin' as [Hin'|Hin'].
    - now apply exec_not_setup in Hin'.
    - now apply list_elem_of_singleton in Hin'. }
  injection Hlast as -> ->.
  destruct (split_at_last
              (Started (namespace_kinds o) :: (Setup <$> setup_steps o))
              pre post (Exec (command_path o) (argument_list o)))
    as [-> ->].
  - intros [Heq|Hin']%elem_of_cons; [discriminate Heq|].
    now apply exec_not_setup in Hin'.
  - exact Hsplit.
  - repeat split; trivial. intros e He. inversion He.
Qed.

Lemma setup_before_exec_witness :
  (launch friendly_host shell_options idle).2
  = [Started [UTS; PID; Mount]; Setup (SetHostname "toy");
     Setup MakeMountsPrivate]
    ++ Exec "/system/bin/sh" ["sh"] :: []
  /\ [Started [UTS; PID; Mount]; Setup (SetHostname "toy");
      Setup MakeMountsPrivate]
     = Started (namespace_kinds shell_options)
         :: (Setup <$> setup_steps shell_options).
Proof.
  split; [reflexivity|].
  exact (proj1 (setup_before_exec friendly_host shell_options idle
                  [Started [UTS; PID; Mount]; Setup (SetHostname "toy");
                   Setup MakeMountsPrivate]
                  [] "/system/bin/sh" ["sh"] eq_refl)).
Defined.

(** ** Further properties of the function *)

(** Conversion to [int] keeps the 32 low bits. *)
Lemma to_int_testbit z i : 0 <= i < 32 -> Z.testbit (to_int z) i = Z.testbit z i.
Proof.
  intros Hi.
  rewrite <- (Z.mod_pow2_bits_low (to_int z) 32 i) by lia.
  rewrite <- (Z.mod_pow2_bits_low z 32 i) by lia.
  f_equal. unfold to_int. rewrite Zminus_mod_idemp_l. f_equal. lia.
Qed.

(** An [int] is negative exactly when its bit 31 is set. *)
Lemma is_int_negative z : is_int z -> (z < 0 <-> Z.testbit z 31 = true).
Proof.
  unfold is_int, int_min, int_max. intros Hz.
  rewrite Z.testbit_true by lia. change (2 ^ 31) with 2147483648 in *.
  split; intros Hneg; Z.to_euclidean_division_equations; lia.
Qed.

(** X1: whatever values the platform header gives the three macros, the value
    [createNamespacedProcess] returns is a [jint]; its 32 low bits are the
    bitwise OR of the flags' low bits, and it is negative exactly when one of
    the flags has bit 31 set. *)
Theorem createNamespacedProcess_wraps_to_jint `{sched_h} {W}
    (h : Handler W) (w : W) (env : JNIEnv_ptr) (clazz : jclass) :
  let r := result (run h (createNamespacedProcess env clazz) w) in
  is_int r
  /\ (forall i, 0 <= i < 32 ->
        Z.testbit r i
        = Z.testbit CLONE_NEWUTS i || Z.testbit CLONE_NEWPID i
          || Z.testbit CLONE_NEWNS i)
  /\ (r < 0 <->
      Z.testbit CLONE_NEWUTS 31 || Z.testbit CLONE_NEWPID 31
        || Z.testbit CLONE_NEWNS 31 = true).
Proof.
  intros r. subst r. rewrite createNamespacedProcess_run.
  unfold result. cbn [fst].
  assert (Hbits : forall i, 0 <= i < 32 ->
    Z.testbit
      (to_jint (int_or (int_or CLONE_NEWUTS CLONE_NEWPID) CLONE_NEWNS)) i
    = Z.testbit CLONE_NEWUTS i || Z.testbit CLONE_NEWPID i
      || Z.testbit CLONE_NEWNS i).
  { intros i Hi. unfold to_jint, int_or.
    rewrite !to_int_testbit, Z.lor_spec, to_int_testbit, Z.lor_spec by lia.
    reflexivity. }
  assert (Hint : is_int
    (to_jint (int_or (int_or CLONE_NEWUTS CLONE_NEWPID) CLONE_NEWNS)))
    by apply is_int_to_int.
  split; [exact Hint|]. split; [exact Hbits|]. split.
  - intros Hneg. rewrite <- Hbits by lia. now apply is_int_negative.
  - intros Hbit. apply is_int_negative; [assumption|]. now rewrite Hbits by lia.
Qed.

(** A header whose PID flag is [0x80000000], which no [int] holds: the value
    returned is negative. *)
Example createNamespacedProcess_sign_bit :
  result (run (@kernel linux_sched_h)
            (@createNamespacedProcess
               {| CLONE_NEWNS := 0x00020000; CLONE_NEWUTS := 0x04000000;
                  CLONE_NEWPID := 0x80000000 |} 0 0) boot)
  = -2080243712.
Proof. reflexivity. Qed.

(** X2: what a caller finds when it tests the returned mask with [&].  Each
    of the three flags is in it ([mask & FLAG] is [FLAG]), and a flag that
    shares no bit with any of the three is not ([mask & f] is [0]). *)
Theorem createNamespacedProcess_flag_tests `{sched_h} {W}
    (h : Handler W) (w : W) (env : JNIEnv_ptr) (clazz : jclass) (f : Z) :
  int_flags ->
  Z.land f CLONE_NEWUTS = 0 -> Z.land f CLONE_NEWPID = 0 ->
  Z.land f CLONE_NEWNS = 0 ->
  let r := result (run h (createNamespacedProcess env clazz) w) in
  (forall k, Z.land r (kind_flag k) = kind_flag k)
  /\ Z.land r f = 0.
Proof.
  intros Hint Hu Hp Hn r. subst r. rewrite createNamespacedProcess_run.
  unfold result; simpl. rewrite createNamespacedProcess_mask by assumption.
  split.
  - intros k. apply Z.bits_inj'. intros i _.
    rewrite Z.land_spec, !Z.lor_spec.
    destruct k; simpl;
      destruct (Z.testbit CLONE_NEWUTS i), (Z.testbit CLONE_NEWPID i),
        (Z.testbit CLONE_NEWNS i); reflexivity.
  - apply Z.bits_inj'. intros i _.
    apply (f_equal (fun z => Z.testbit z i)) in Hu, Hp, Hn.
    rewrite Z.land_spec, Z.bits_0 in Hu, Hp, Hn.
    rewrite Z.land_spec, !Z.lor_spec, Z.bits_0.
    destruct (Z.testbit f i), (Z.testbit CLONE_NEWUTS i),
      (Z.testbit CLONE_NEWPID i), (Z.testbit CLONE_NEWNS i);
      simpl in *; congruence.
Qed.

Lemma createNamespacedProcess_flag_tests_witness :
  @int_flags linux_sched_h
  /\ Z.land 0x40000000 0x04000000 = 0
  /\ Z.land 0x40000000 0x20000000 = 0
  /\ Z.land 0x40000000 0x00020000 = 0
  /\ let r := result (run (@kernel linux_sched_h)
                        (@createNamespacedProcess linux_sched_h 0 0) boot) in
     (forall k, Z.land r (@kind_flag linux_sched_h k) = @kind_flag linux_sched_h k)
     /\ Z.land r 0x40000000 = 0.
Proof.
  assert (Hint : @int_flags linux_sched_h).
  { unfold int_flags, is_int, int_min, int_max; simpl. lia. }
  split; [exact Hint|]. do 3 (split; [reflexivity|]).
  exact (@createNamespacedProcess_flag_tests linux_sched_h World
           (@kernel linux_sched_h) boot 0 0 0x40000000 Hint
           eq_refl eq_refl eq_refl).
Defined.
